(** * transform.py: a declarative extraction engine, embedded and verified

    The development follows [src/transform.py].  Python values become an
    inductive type whose dictionaries are finite maps, exceptions become the
    [Raise] branch of an outcome type, and the four functions
    [_transform_dict], [_transform_list], [_transform_string] and [transform]
    keep their names and their control flow. *)

From Stdlib Require Import ZArith Ascii.
From stdpp Require Import gmap strings list fin_maps.

Set Warnings "-register-all".
Set Default Proof Using "Type".

(** ** Python values *)

(** The records handled by the engine: [None], integers, strings, lists and
    string-keyed dictionaries. *)
Inductive value : Type :=
| VNone
| VInt (z : Z)
| VStr (s : string)
| VList (l : list value)
| VDict (d : gmap string value).

(** Objects that are neither [dict], [list], [str] nor callable. *)
Inductive other : Type :=
| ONone
| OInt (z : Z).

(** ** Exceptions

    The three exception classes of the module, with the arguments they are
    constructed with, and the built-in Python exceptions that the code can
    let escape.  [T] is the type of specification objects, which appear as
    arguments of the exceptions. *)
Inductive exn (T : Type) : Type :=
| TransformationTypeMismatch (locator : T) (data : value) (expected : string)
| TransformationFieldMissing (locator : string) (data : value)
| TransformationMalformed (transformation : T)
| KeyError (key : T)
| TypeError
| AttributeError
| ValueError
| ReError.

Arguments TransformationTypeMismatch {T} locator data expected.
Arguments TransformationFieldMissing {T} locator data.
Arguments TransformationMalformed {T} transformation.
Arguments KeyError {T} key.
Arguments TypeError {T}.
Arguments AttributeError {T}.
Arguments ValueError {T}.
Arguments ReError {T}.

(** A call either returns or raises. *)
Inductive outcome (E A : Type) : Type :=
| Return (a : A)
| Raise (e : E).

Arguments Return {E A} a.
Arguments Raise {E A} e.

Definition bind {E A B} (c : outcome E A) (k : A -> outcome E B) : outcome E B :=
  match c with
  | Return a => k a
  | Raise e => Raise e
  end.

Notation "'do' x <- c ; k" := (bind c (fun x => k))
  (at level 10, x name, c at level 100, k at level 200).

(** ** Transformation specifications

    [transform] dispatches on the runtime type of its first argument:
    a [dict] (its [items()] in insertion order), a [list], a [str], a
    callable, or anything else.  A callable returns a string-keyed dictionary
    ([Extractor] in the source) or raises. *)
Inductive spec : Type :=
| TDict (items : list (spec * spec))
| TList (items : list spec)
| TStr (s : string)
| TFun (f : value -> outcome (exn spec) (gmap string value))
| TOther (o : other).

Abbreviation error := (exn spec).
Abbreviation resultmap := (gmap string value).
Abbreviation result := (outcome (exn spec) (gmap string value)).
Abbreviation Extractor := (value -> outcome (exn spec) (gmap string value)).

(** ** Python primitives used by the module *)

(** [sub in s] on strings. *)
Fixpoint str_contains (sub s : string) : bool :=
  String.prefix sub s ||
  match s with
  | EmptyString => false
  | String _ s' => str_contains sub s'
  end.

(** [s.split(sep)] for a non-empty separator: the text is cut at each
    leftmost occurrence of [sep]; [skip] counts the characters of an
    occurrence still to be dropped and [cur] is the piece being read. *)
Fixpoint split_from (sep : string) (skip : nat) (cur s : string) : list string :=
  match s with
  | EmptyString => [cur]
  | String c s' =>
      match skip with
      | S k => split_from sep k cur s'
      | O =>
          if String.prefix sep s
          then cur :: split_from sep (String.length sep - 1) EmptyString s'
          else split_from sep 0 (cur +:+ String c EmptyString) s'
      end
  end.

Definition str_split (sep s : string) : list string :=
  split_from sep 0 EmptyString s.

(** [x.split(delimiter)] on an arbitrary value: only strings have the
    method, and an empty separator is rejected. *)
Definition py_split (x : value) (delimiter : string) : outcome error value :=
  match x with
  | VStr s =>
      match delimiter with
      | EmptyString => Raise ValueError
      | _ => Return (VList (VStr <$> str_split delimiter s))
      end
  | _ => Raise AttributeError
  end.

(** [key in data]: key lookup on a dictionary, substring test on a string,
    membership on a list; other values are not iterable. *)
Definition py_in (key : string) (data : value) : outcome error bool :=
  match data with
  | VDict d => Return (bool_decide (is_Some (d !! key)))
  | VStr s => Return (str_contains key s)
  | VList l =>
      Return (existsb (fun x => match x with VStr s => String.eqb key s | _ => false end) l)
  | VNone | VInt _ => Raise TypeError
  end.

(** [data[key]] with a string key: only dictionaries accept it. *)
Definition py_getitem (data : value) (key : string) : outcome error value :=
  match data with
  | VDict d =>
      match d !! key with
      | Some x => Return x
      | None => Raise (KeyError (TStr key))
      end
  | _ => Raise TypeError
  end.

(** [m[k]] on a result dictionary, whose keys are strings, with an arbitrary
    object [k]: dictionaries and lists are unhashable, and an object that is
    not a string equals no key. *)
Definition getitem (m : resultmap) (k : spec) : outcome error value :=
  match k with
  | TStr s =>
      match m !! s with
      | Some x => Return x
      | None => Raise (KeyError k)
      end
  | TDict _ | TList _ => Raise TypeError
  | TFun _ | TOther _ => Raise (KeyError k)
  end.

(** [accumulator.update(r)]: the entries of [r] overwrite. *)
Definition update (accumulator r : resultmap) : resultmap := r ∪ accumulator.

(** ** The evaluator *)

(** The loop of [_transform_string] over the steps of a dotted path. *)
Fixpoint walk (transformation : string) (steps : list string) (data : value)
    (nullable : bool) : result :=
  match steps with
  | [] => Return {[transformation := data]}
  | step :: steps' =>
      match data with
      | VDict d =>
          match d !! step with
          | None =>
              if nullable then Return {[transformation := VNone]}
              else Raise (TransformationFieldMissing step data)
          | Some x => walk transformation steps' x nullable
          end
      | _ => Raise (TransformationTypeMismatch (TStr step) data "dict")
      end
  end.

Definition _transform_string (transformation : string) (data : value)
    (nullable : bool) : result :=
  if str_contains "." transformation then
    walk transformation (str_split "." transformation) data nullable
  else
    do present <- py_in transformation data;
    if negb present then
      if nullable then Return {[transformation := VNone]}
      else Raise (TransformationFieldMissing transformation data)
    else
      do x <- py_getitem data transformation;
      Return {[transformation := x]}.

Section Composite.
  (** The recursive calls to [transform] made by the two composite cases. *)
Variable transform : spec -> value -> bool -> result.

Definition dict_loop (data : value) (nullable : bool) :
      list (spec * spec) -> resultmap -> result :=
    fix loop (items : list (spec * spec)) (accumulator : resultmap) : result :=
      match items with
      | [] => Return accumulator
      | (k, v) :: items' =>
          do km <- transform k data nullable;
          do x <- getitem km k;
          do r <- transform v x nullable;
          loop items' (update accumulator r)
      end.

Definition _transform_dict (transformation : list (spec * spec)) (data : value)
      (nullable : bool) : result :=
    match data with
    | VDict _ => dict_loop data nullable transformation ∅
    | _ => Raise (TransformationTypeMismatch (TDict transformation) data "dict")
    end.

Definition list_loop (data : value) (nullable : bool) :
      list spec -> resultmap -> result :=
    fix loop (items : list spec) (accumulator : resultmap) : result :=
      match items with
      | [] => Return accumulator
      | extract :: items' =>
          do r <- transform extract data nullable;
          loop items' (update accumulator r)
      end.

Definition _transform_list (transformation : list spec) (data : value)
      (nullable : bool) : result :=
    match data with
    | VDict _ => list_loop data nullable transformation ∅
    | _ => Raise (TransformationTypeMismatch (TList transformation) data "dict")
    end.
End Composite.

Fixpoint transform (transformation : spec) (data : value) (nullable : bool)
    {struct transformation} : result :=
  match transformation with
  | TDict items => _transform_dict transform items data nullable
  | TList items => _transform_list transform items data nullable
  | TStr s => _transform_string s data nullable
  | TFun f => f data
  | TOther _ => Raise (TransformationMalformed transformation)
  end.

(** ** The built-in extractors *)

Definition rename (old new : string) : Extractor :=
  fun data =>
    do m <- transform (TStr old) data false;
    do x <- getitem m (TStr old);
    Return {[new := x]}.

Definition split (field delimiter : string) : Extractor :=
  fun data =>
    do m <- transform (TStr field) data false;
    do x <- getitem m (TStr field);
    do parts <- py_split x delimiter;
    Return {[field := parts]}.

Section Regex.
  (** The [re] module of the Python library: whether a pattern and a
      replacement template compile, and the substitution on a string. *)
Variable re_valid : string -> string -> bool.
Variable re_sub_str : string -> string -> string -> string.

  (** [re.sub(pattern, replace, value)]: the pattern and the template are
      compiled first, then the subject must be a string. *)
Definition re_sub (pattern replace : string) (x : value) : outcome error value :=
    if re_valid pattern replace then
      match x with
      | VStr s => Return (VStr (re_sub_str pattern replace s))
      | _ => Raise TypeError
      end
    else Raise ReError.

Definition mask (field pattern replace : string) : Extractor :=
    fun data =>
      do m <- transform (TStr field) data false;
      do x <- getitem m (TStr field);
      do masked <- re_sub pattern replace x;
      Return {[field := masked]}.
End Regex.

Definition nullable (field : spec) (nullable : bool) : Extractor :=
  fun data => transform field data nullable.

(** ** Reference notions used in the statements *)

(** Following the segments of a path, left to right, into nested
    dictionaries. *)
Fixpoint follow (segments : list string) (cursor : value) : option value :=
  match segments with
  | [] => Some cursor
  | segment :: rest =>
      match cursor with
      | VDict d =>
          match d !! segment with
          | Some x => follow rest x
          | None => None
          end
      | _ => None
      end
  end.

Definition is_dict (data : value) : bool :=
  match data with
  | VDict _ => true
  | _ => false
  end.

Definition is_str (data : value) : bool :=
  match data with
  | VStr _ => true
  | _ => false
  end.

(** The exceptions of the module's own hierarchy. *)
Definition is_transformation_exception (e : error) : bool :=
  match e with
  | TransformationTypeMismatch _ _ _
  | TransformationFieldMissing _ _
  | TransformationMalformed _ => true
  | _ => false
  end.

(** The result dictionaries of a list of calls, up to the first that
    raises. *)
Fixpoint collect (rs : list result) : outcome error (list resultmap) :=
  match rs with
  | [] => Return []
  | r :: rs' =>
      do m <- r;
      do ms <- collect rs';
      Return (m :: ms)
  end.

(** Merging result dictionaries in order, later ones overwriting. *)
Definition merge (ms : list resultmap) : resultmap := foldl update ∅ ms.

(** The value that the last dictionary of [ms] having [key] gives it. *)
Fixpoint last_binding (key : string) (ms : list resultmap) : option value :=
  match ms with
  | [] => None
  | m :: ms' =>
      match last_binding key ms' with
      | Some x => Some x
      | None => m !! key
      end
  end.

(** One entry of a dictionary specification, as the specification words it:
    the key is evaluated against the input, the value of the intermediate
    dictionary at the key is extracted, and the value specification is
    evaluated against it. *)
Definition eval_entry (data : value) (nullable : bool) (entry : spec * spec) : result :=
  do km <- transform entry.1 data nullable;
  do x <- getitem km entry.1;
  transform entry.2 x nullable.

(** No two dictionaries of the list share a key. *)
Fixpoint distinct_keys (ms : list resultmap) : bool :=
  match ms with
  | [] => true
  | m :: ms' => forallb (λ m', bool_decide (m ##ₘ m')) ms' && distinct_keys ms'
  end.

(** A specification built without callables. *)
Fixpoint extractor_free (t : spec) : bool :=
  match t with
  | TDict items =>
      forallb (λ entry, extractor_free entry.1 && extractor_free entry.2) items
  | TList items => forallb extractor_free items
  | TStr _ => true
  | TFun _ => false
  | TOther _ => true
  end.

(** The keys under which a specification without callables stores what it
    extracts: the path strings in item position and in the value position of
    dictionary entries. *)
Fixpoint output_keys (t : spec) : gset string :=
  match t with
  | TDict items => ⋃ ((λ entry, output_keys entry.2) <$> items)
  | TList items => ⋃ (output_keys <$> items)
  | TStr p => {[p]}
  | TFun _ => ∅
  | TOther _ => ∅
  end.

(** [sep.join(parts)]. *)
Fixpoint str_join (sep : string) (parts : list string) : string :=
  match parts with
  | [] => EmptyString
  | [part] => part
  | part :: parts' => part +:+ sep +:+ str_join sep parts'
  end.

(** [s[n:]] on strings. *)
Fixpoint str_drop (n : nat) (s : string) : string :=
  match n, s with
  | O, _ => s
  | S _, EmptyString => EmptyString
  | S n', String _ s' => str_drop n' s'
  end.

Section SpecInduction.
(** Structural induction on specifications, through the lists of items and
    entries. *)
Variable P : spec → Prop.
Hypothesis Hdict : ∀ items, Forall (λ entry, P entry.1 ∧ P entry.2) items → P (TDict items).
Hypothesis Hlist : ∀ items, Forall P items → P (TList items).
Hypothesis Hstr : ∀ s, P (TStr s).
Hypothesis Hfun : ∀ f, P (TFun f).
Hypothesis Hother : ∀ o, P (TOther o).

Fixpoint spec_induction (t : spec) : P t :=
  match t with
  | TDict items =>
      Hdict items
        ((fix entries (l : list (spec * spec)) :
            Forall (λ entry, P entry.1 ∧ P entry.2) l :=
            match l with
            | [] => List.Forall_nil _
            | (k, v) :: l' =>
                @List.Forall_cons _ _ (k, v) l'
                  (conj (spec_induction k) (spec_induction v)) (entries l')
            end) items)
  | TList items =>
      Hlist items
        ((fix each (l : list spec) : Forall P l :=
            match l with
            | [] => List.Forall_nil _
            | t' :: l' => @List.Forall_cons _ _ t' l' (spec_induction t') (each l')
            end) items)
  | TStr s => Hstr s
  | TFun f => Hfun f
  | TOther o => Hother o
  end.
End SpecInduction.

(** ** The checks of the module's self-test *)

Definition D (l : list (string * value)) : value := VDict (list_to_map l).

Example check_string_plain :
  transform (TStr "a") (D [("a", VInt 1)]) false = Return {["a" := VInt 1]}.
Proof. reflexivity. Qed.

Example check_string_dotted :
  transform (TStr "a.b.c") (D [("a", D [("b", D [("c", VInt 1)])])]) false
  = Return {["a.b.c" := VInt 1]}.
Proof. reflexivity. Qed.

Example check_list :
  transform (TList [TStr "a"; TStr "b"; TStr "c.d"])
    (D [("a", VInt 1); ("b", VInt 2); ("c", D [("d", VInt 3)])]) false
  = Return {["a" := VInt 1; "b" := VInt 2; "c.d" := VInt 3]}.
Proof. reflexivity. Qed.

Example check_dict :
  transform (TDict [(TStr "a.b", TStr "c.d")])
    (D [("a", D [("b", D [("c", D [("d", VInt 1)])])])]) false
  = Return {["c.d" := VInt 1]}.
Proof. reflexivity. Qed.

Example check_nullable_list :
  transform (TList [TStr "a"; TStr "b"]) (D [("a", VInt 1)]) true
  = Return {["a" := VInt 1; "b" := VNone]}.
Proof. reflexivity. Qed.

Example check_rename_overwrites :
  transform (TList [TStr "a"; TFun (rename "b" "a")])
    (D [("a", VInt 1); ("b", VInt 2)]) false
  = Return {["a" := VInt 2]}.
Proof. reflexivity. Qed.

Example check_split :
  transform (TFun (split "a" ",")) (D [("a", VStr "1,2,3")]) false
  = Return {["a" := VList [VStr "1"; VStr "2"; VStr "3"]]}.
Proof. reflexivity. Qed.

Example check_nullable_override :
  transform (TFun (nullable (TStr "a") false)) (D []) true
  = Raise (TransformationFieldMissing "a" (D [])).
Proof. reflexivity. Qed.

(** ** Strings *)

Lemma append_cons (a : ascii) (s t : string) :
  String a s +:+ t = String a (s +:+ t).
Proof. reflexivity. Qed.

Lemma append_empty_r (s : string) : s +:+ EmptyString = s.
Proof.
  induction s as [|c s IH]; [reflexivity |]. by rewrite append_cons, IH.
Qed.

Lemma append_snoc (s : string) (c : ascii) (t : string) :
  (s +:+ String c EmptyString) +:+ t = s +:+ String c t.
Proof.
  induction s as [|a s IH]; [reflexivity |]. by rewrite !append_cons, IH.
Qed.

Lemma split_from_step sep cur c s :
  split_from sep 0 cur (String c s) =
    if String.prefix sep (String c s)
    then cur :: split_from sep (String.length sep - 1) EmptyString s
    else split_from sep 0 (cur +:+ String c EmptyString) s.
Proof. reflexivity. Qed.

Lemma str_contains_cons sub c s :
  str_contains sub (String c s) = String.prefix sub (String c s) || str_contains sub s.
Proof. reflexivity. Qed.

Lemma split_from_nonempty sep skip cur s : split_from sep skip cur s ≠ [].
Proof.
  revert skip cur. induction s as [|c s IH]; intros skip cur; [done |].
  destruct skip as [|k]; [| apply IH].
  rewrite split_from_step.
  destruct (String.prefix sep (String c s)); [done | apply IH].
Qed.

(** Without an occurrence of the separator the text is a single piece. *)
Lemma split_from_absent sep cur s :
  str_contains sep s = false → split_from sep 0 cur s = [cur +:+ s].
Proof.
  revert cur. induction s as [|c s IH]; intros cur Habs.
  - simpl. f_equal. symmetry. apply append_empty_r.
  - rewrite str_contains_cons in Habs.
    apply orb_false_iff in Habs as [Hpre Hrest].
    rewrite split_from_step, Hpre, IH by done. f_equal. apply append_snoc.
Qed.

Lemma str_split_absent sep s :
  str_contains sep s = false → str_split sep s = [s].
Proof. intros Habs. unfold str_split. by rewrite split_from_absent. Qed.

(** ** Path resolution *)

Lemma walk_follow p steps data n v :
  follow steps data = Some v → walk p steps data n = Return {[p := v]}.
Proof.
  revert data. induction steps as [|step steps IH]; intros data Hfol; simpl in *.
  - by injection Hfol as ->.
  - destruct data as [| | | |d]; try discriminate.
    destruct (d !! step) as [x|]; [by apply IH | discriminate].
Qed.

Lemma walk_absent p pre step post data d n :
  follow pre data = Some (VDict d) → d !! step = None →
  walk p (pre ++ step :: post) data n =
    if n then Return {[p := VNone]}
    else Raise (TransformationFieldMissing step (VDict d)).
Proof.
  revert data. induction pre as [|s pre IH]; intros data Hfol Habs; simpl in *.
  - injection Hfol as ->. by rewrite Habs.
  - destruct data as [| | | |d']; try discriminate.
    destruct (d' !! s) as [x|]; [by apply IH | discriminate].
Qed.

(** On a dictionary the undotted shortcut of [_transform_string] is the loop
    run on the single step. *)
Lemma transform_string_dict_walk p d n :
  _transform_string p (VDict d) n = walk p (str_split "." p) (VDict d) n.
Proof.
  unfold _transform_string.
  destruct (str_contains "." p) eqn:Hdot; [done |].
  rewrite str_split_absent by done.
  unfold py_in, py_getitem, walk, bind.
  destruct (d !! p) as [x|] eqn:Hp.
  - by rewrite bool_decide_eq_true_2 by eauto.
  - rewrite bool_decide_eq_false_2; [done |]. by intros [? ?].
Qed.

Lemma follow_nonempty_dict segments data v :
  segments ≠ [] → follow segments data = Some v → ∃ d, data = VDict d.
Proof.
  destruct segments as [|s rest]; [done |]. intros _ Hfol. simpl in Hfol.
  destruct data; try discriminate. eauto.
Qed.

(** C1. When every segment of the dotted path [p] resolves in [m], with [v]
    the value reached by following the segments of [p] from left to right,
    [transform(p, m, False)] returns the one-entry dictionary [{p: v}]: its
    only key is the whole string [p]. *)
Theorem transform_path_resolves (p : string) (m v : value) :
  follow (str_split "." p) m = Some v →
  transform (TStr p) m false = Return {[p := v]}
  ∧ dom ({[p := v]} : resultmap) = {[p]}.
Proof.
  intros Hfol. split; [| by rewrite dom_singleton_L].
  destruct (follow_nonempty_dict _ _ _ (split_from_nonempty _ _ _ _) Hfol) as [d ->].
  simpl. rewrite transform_string_dict_walk. by apply walk_follow.
Qed.

Lemma transform_path_resolves_witness :
  transform (TStr "a.b.c") (D [("a", D [("b", D [("c", VInt 1)])])]) false
  = Return {["a.b.c" := VInt 1]}.
Proof.
  apply (transform_path_resolves "a.b.c"
           (D [("a", D [("b", D [("c", VInt 1)])])]) (VInt 1)).
  reflexivity.
Defined.

Lemma transform_path_missing_gen (p : string) (m : value)
    (pre : list string) (step : string) (post : list string)
    (d : gmap string value) :
  str_split "." p = pre ++ step :: post →
  follow pre m = Some (VDict d) →
  d !! step = None →
  transform (TStr p) m false = Raise (TransformationFieldMissing step (VDict d))
  ∧ transform (TStr p) m true = Return {[p := VNone]}.
Proof.
  intros Hsplit Hfol Habs.
  assert (∃ d0, m = VDict d0) as [d0 ->].
  { destruct pre as [|s pre]; simpl in Hfol.
    - injection Hfol as ->. eauto.
    - destruct m; try discriminate. eauto. }
  simpl. rewrite !transform_string_dict_walk, Hsplit.
  split; by rewrite (walk_absent _ _ _ _ _ d).
Qed.

(** C2. When the segments of [p] before [step] resolve in [m] to a
    dictionary [d] that lacks the key [step], [transform(p, m, False)] raises
    [TransformationFieldMissing] with [step], the first unresolved segment,
    and [transform(p, m, True)] returns [{p: None}]. *)
Theorem transform_path_missing (p : string) (m : value)
    (pre : list string) (step : string) (post : list string)
    (d : gmap string value) :
  str_split "." p = pre ++ step :: post →
  follow pre m = Some (VDict d) →
  d !! step = None →
  transform (TStr p) m false = Raise (TransformationFieldMissing step (VDict d))
  ∧ transform (TStr p) m true = Return {[p := VNone]}.
Proof. apply transform_path_missing_gen. Qed.

Lemma transform_path_missing_witness :
  transform (TStr "a.b.c") (D [("a", D [("x", VInt 1)])]) false
  = Raise (TransformationFieldMissing "b" (D [("x", VInt 1)]))
  ∧ transform (TStr "a.b.c") (D [("a", D [("x", VInt 1)])]) true
    = Return {["a.b.c" := VNone]}.
Proof.
  apply (transform_path_missing "a.b.c" (D [("a", D [("x", VInt 1)])])
           ["a"] "b" ["c"] (list_to_map [("x", VInt 1)])); reflexivity.
Defined.

(** C4. The undotted branch of [_transform_string] does not test that the
    input is a dictionary: on the string ["xyz"] the path ["a"] gives
    [{"a": None}] under nullable mode and [TransformationFieldMissing]
    otherwise, and on an integer the [in] test raises [TypeError]; the loop of
    the dotted branch run on the single step ["a"] raises
    [TransformationTypeMismatch] naming the step. *)
Theorem undotted_path_skips_dict_check :
  transform (TStr "a") (VStr "xyz") true = Return {["a" := VNone]}
  ∧ transform (TStr "a") (VStr "xyz") false
    = Raise (TransformationFieldMissing "a" (VStr "xyz"))
  ∧ transform (TStr "a") (VInt 5) false = Raise TypeError
  ∧ str_contains "." "a" = false
  ∧ walk "a" (str_split "." "a") (VStr "xyz") true
    = Raise (TransformationTypeMismatch (TStr "a") (VStr "xyz") "dict").
Proof. repeat split; reflexivity. Qed.

(** C5. A dictionary or list specification applied to an input that is not a
    dictionary raises [TransformationTypeMismatch], for either value of the
    nullable flag and whatever the items of the specification are. *)
Theorem composite_requires_dict (entries : list (spec * spec))
    (items : list spec) (data : value) (n : bool) :
  is_dict data = false →
  transform (TDict entries) data n
    = Raise (TransformationTypeMismatch (TDict entries) data "dict")
  ∧ transform (TList items) data n
    = Raise (TransformationTypeMismatch (TList items) data "dict").
Proof. intros Hnd. destruct data; try discriminate; by split. Qed.

Lemma composite_requires_dict_witness :
  transform (TDict [(TStr "a", TStr "b")]) (VInt 5) true
    = Raise (TransformationTypeMismatch (TDict [(TStr "a", TStr "b")]) (VInt 5) "dict")
  ∧ transform (TList [TFun (rename "a" "b"); TStr "a"]) (VInt 5) true
    = Raise (TransformationTypeMismatch
               (TList [TFun (rename "a" "b"); TStr "a"]) (VInt 5) "dict").
Proof.
  apply (composite_requires_dict [(TStr "a", TStr "b")]
           [TFun (rename "a" "b"); TStr "a"] (VInt 5) true).
  reflexivity.
Defined.

(** C8. The extractor [nullable(field, flag)] evaluates [field] with [flag]
    whatever flag the enclosing call carries: when the input lacks the path
    [f] (its segments before [step] lead to a dictionary [d] without [step]),
    [nullable(f, False)] raises [TransformationFieldMissing] and
    [nullable(f, True)] returns [{f: None}], under either ambient flag. *)
Theorem nullable_overrides_ambient (f : string) (m : value)
    (pre : list string) (step : string) (post : list string)
    (d : gmap string value) (ambient : bool) :
  str_split "." f = pre ++ step :: post →
  follow pre m = Some (VDict d) →
  d !! step = None →
  (∀ flag, transform (TFun (nullable (TStr f) flag)) m ambient
           = transform (TStr f) m flag)
  ∧ transform (TFun (nullable (TStr f) false)) m ambient
    = Raise (TransformationFieldMissing step (VDict d))
  ∧ transform (TFun (nullable (TStr f) true)) m ambient
    = Return {[f := VNone]}.
Proof.
  intros Hsplit Hfol Habs.
  destruct (transform_path_missing_gen f m pre step post d Hsplit Hfol Habs)
    as [Hf Ht].
  split; [done |]. split; [exact Hf | exact Ht].
Qed.

Lemma nullable_overrides_ambient_witness :
  transform (TFun (nullable (TStr "a") false)) (D []) true
    = Raise (TransformationFieldMissing "a" (D []))
  ∧ transform (TFun (nullable (TStr "a") true)) (D []) false
    = Return {["a" := VNone]}.
Proof.
  split.
  - apply (nullable_overrides_ambient "a" (D []) [] "a" [] ∅ true); reflexivity.
  - apply (nullable_overrides_ambient "a" (D []) [] "a" [] ∅ false); reflexivity.
Defined.

(** ** Merging result dictionaries *)

Lemma update_lookup (acc r : resultmap) (key : string) :
  update acc r !! key = match r !! key with Some x => Some x | None => acc !! key end.
Proof.
  unfold update. rewrite lookup_union.
  by destruct (r !! key), (acc !! key).
Qed.

Lemma foldl_update_lookup (ms : list resultmap) (acc : resultmap) (key : string) :
  foldl update acc ms !! key =
    match last_binding key ms with
    | Some x => Some x
    | None => acc !! key
    end.
Proof.
  revert acc. induction ms as [|m ms IH]; intros acc; simpl; [done |].
  rewrite IH, update_lookup. by destruct (last_binding key ms).
Qed.

(** Last write wins: the merged dictionary gives each key the value of the
    last dictionary that has it. *)
Lemma merge_lookup (ms : list resultmap) (key : string) :
  merge ms !! key = last_binding key ms.
Proof.
  unfold merge. rewrite foldl_update_lookup, lookup_empty.
  by destruct (last_binding key ms).
Qed.

Lemma last_binding_Some key ms x :
  last_binding key ms = Some x → ∃ i m, ms !! i = Some m ∧ m !! key = Some x.
Proof.
  induction ms as [|m ms IH]; simpl; [done |].
  destruct (last_binding key ms) as [y|] eqn:Hlast.
  - intros [= ->]. destruct IH as (i & m' & Hi & Hm'); [done |].
    by exists (S i), m'.
  - intros Hm. by exists 0, m.
Qed.

Lemma last_binding_None key ms :
  last_binding key ms = None ↔ ∀ m, m ∈ ms → m !! key = None.
Proof.
  induction ms as [|m ms IH]; simpl.
  - split; [| done]. intros _ m Hin. by apply elem_of_nil in Hin.
  - destruct (last_binding key ms) as [y|] eqn:Hlast.
    + split; [done |]. intros Hall.
      assert (Some y = None) as Habs; [| done].
      apply IH. intros m' Hin. apply Hall. by right.
    + split.
      * intros Hm m' [-> | Hin]%elem_of_cons; [done |].
        by apply (proj1 IH).
      * intros Hall. apply Hall. by left.
Qed.

Lemma distinct_keys_lookup ms i j mi mj :
  distinct_keys ms = true → i ≠ j →
  ms !! i = Some mi → ms !! j = Some mj → mi ##ₘ mj.
Proof.
  revert i j. induction ms as [|m ms IH]; intros i j Hdist Hne Hi Hj; [done |].
  simpl in Hdist. apply andb_true_iff in Hdist as [Hhead Htail].
  rewrite forallb_forall in Hhead.
  destruct i as [|i], j as [|j]; simpl in Hi, Hj; [done | | |].
  - injection Hi as ->. apply list_elem_of_lookup_2, list_elem_of_In in Hj.
    by apply Hhead, bool_decide_eq_true in Hj.
  - injection Hj as ->. apply list_elem_of_lookup_2, list_elem_of_In in Hi.
    symmetry. by apply Hhead, bool_decide_eq_true in Hi.
  - apply (IH i j); [done | congruence | done | done].
Qed.

Lemma last_binding_distinct key ms i m x :
  distinct_keys ms = true → ms !! i = Some m → m !! key = Some x →
  last_binding key ms = Some x.
Proof.
  intros Hdist Hi Hm.
  destruct (last_binding key ms) as [y|] eqn:Hlast.
  - apply last_binding_Some in Hlast as (j & m' & Hj & Hm').
    destruct (decide (i = j)) as [-> | Hne]; [congruence |].
    pose proof (distinct_keys_lookup ms i j m m' Hdist Hne Hi Hj) as Hdisj.
    by destruct (proj1 (map_disjoint_spec m m') Hdisj key x y).
  - assert (m !! key = None); [| congruence].
    apply (proj1 (last_binding_None key ms) Hlast).
    by apply list_elem_of_lookup_2 with i.
Qed.

(** For dictionaries without common keys the merge does not depend on the
    order. *)
Lemma merge_Permutation (ms ms' : list resultmap) :
  distinct_keys ms = true → ms' ≡ₚ ms → merge ms' = merge ms.
Proof.
  intros Hdist Hperm. apply map_eq. intros key. rewrite !merge_lookup.
  destruct (last_binding key ms') as [x|] eqn:Hlast.
  - apply last_binding_Some in Hlast as (i & m & Hi & Hm).
    apply list_elem_of_lookup_2 in Hi. rewrite Hperm in Hi.
    apply list_elem_of_lookup_1 in Hi as [j Hj].
    symmetry. by apply last_binding_distinct with j m.
  - symmetry. apply last_binding_None. intros m Hin.
    rewrite <- Hperm in Hin.
    by apply (proj1 (last_binding_None key ms') Hlast).
Qed.

(** ** The loops of the composite cases *)

Lemma collect_Return (ms : list resultmap) :
  collect (Return <$> ms) = Return ms.
Proof.
  induction ms as [|m ms IH]; [done |].
  rewrite fmap_cons. cbn [collect bind]. by rewrite IH.
Qed.

Lemma collect_Raise (ms : list resultmap) (e : error) (rs : list result) :
  collect ((Return <$> ms) ++ Raise e :: rs) = Raise e.
Proof.
  induction ms as [|m ms IH]; [done |].
  rewrite fmap_cons, <- app_comm_cons. cbn [collect bind]. by rewrite IH.
Qed.

Lemma list_loop_collect (data : value) (n : bool) (items : list spec)
    (acc : resultmap) :
  list_loop transform data n items acc =
    do ms <- collect ((λ item, transform item data n) <$> items);
    Return (foldl update acc ms).
Proof.
  revert acc. induction items as [|item items IH]; intros acc; [done |].
  rewrite fmap_cons. cbn [list_loop collect].
  destruct (transform item data n) as [r|e]; cbn [bind]; [| done].
  rewrite IH. by destruct (collect _).
Qed.

Lemma dict_loop_collect (data : value) (n : bool) (entries : list (spec * spec))
    (acc : resultmap) :
  dict_loop transform data n entries acc =
    do ms <- collect (eval_entry data n <$> entries);
    Return (foldl update acc ms).
Proof.
  revert acc. induction entries as [|[k v] entries IH]; intros acc; [done |].
  rewrite fmap_cons. cbn [dict_loop collect]. unfold eval_entry at 1.
  cbn [fst snd].
  destruct (transform k data n) as [km|e]; cbn [bind]; [| done].
  destruct (getitem km k) as [x|e]; cbn [bind]; [| done].
  destruct (transform v x n) as [r|e]; cbn [bind]; [| done].
  rewrite IH. by destruct (collect _).
Qed.

Lemma transform_list_collect (items : list spec) (d : gmap string value) (n : bool) :
  transform (TList items) (VDict d) n =
    do ms <- collect ((λ item, transform item (VDict d) n) <$> items);
    Return (merge ms).
Proof. simpl. apply list_loop_collect. Qed.

Lemma transform_dict_collect (entries : list (spec * spec))
    (d : gmap string value) (n : bool) :
  transform (TDict entries) (VDict d) n =
    do ms <- collect (eval_entry (VDict d) n <$> entries);
    Return (merge ms).
Proof. simpl. apply dict_loop_collect. Qed.

Lemma Forall2_fmap_Return {A} (f : A → result) (xs : list A) (ms : list resultmap) :
  Forall2 (λ x m, f x = Return m) xs ms → f <$> xs = Return <$> ms.
Proof.
  induction 1 as [|x m xs ms Hx _ IH]; [done |].
  by rewrite !fmap_cons, Hx, IH.
Qed.

Lemma fmap_Return_Permutation (rs : list result) (ms : list resultmap) :
  rs ≡ₚ Return <$> ms → ∃ ms', rs = Return <$> ms' ∧ ms' ≡ₚ ms.
Proof.
  revert rs. induction ms as [|m ms IH]; intros rs Hperm.
  - apply Permutation_nil_r in Hperm as ->. by exists [].
  - rewrite fmap_cons in Hperm.
    apply Permutation_cons_inv_r in Hperm as (rs1 & rs2 & -> & Hperm).
    symmetry in Hperm. destruct (IH _ Hperm) as (ms' & Heq & Hperm').
    symmetry in Heq. apply fmap_app_inv in Heq as (ms1 & ms2 & -> & -> & ->).
    exists (ms1 ++ m :: ms2). split.
    + by rewrite fmap_app.
    + by rewrite <- Permutation_middle, Hperm'.
Qed.

(** C6. A list specification applied to a dictionary evaluates its items in
    order, each against the same input, and merges the result dictionaries,
    a later one overwriting an earlier one: every key gets the value of the
    last item that produces it.  When the items produce dictionaries without
    common keys, any reordering of the items gives the same result.  And
    [transform(["a", "a"], {"a": 1}, nullable)] is [{"a": 1}] for both
    values of [nullable]. *)
Theorem transform_list_merges (items : list spec) (d : gmap string value)
    (n : bool) :
  transform (TList items) (VDict d) n =
    (do ms <- collect ((λ item, transform item (VDict d) n) <$> items);
     Return (merge ms))
  ∧ (∀ ms, Forall2 (λ item m, transform item (VDict d) n = Return m) items ms →
       ∃ r, transform (TList items) (VDict d) n = Return r
            ∧ ∀ key, r !! key = last_binding key ms)
  ∧ (∀ ms items',
       Forall2 (λ item m, transform item (VDict d) n = Return m) items ms →
       distinct_keys ms = true →
       items' ≡ₚ items →
       transform (TList items') (VDict d) n = transform (TList items) (VDict d) n)
  ∧ transform (TList [TStr "a"; TStr "a"]) (D [("a", VInt 1)]) n
    = Return {["a" := VInt 1]}.
Proof.
  split; [apply transform_list_collect |]. split; [| split].
  - intros ms Hall. exists (merge ms). split; [| apply merge_lookup].
    rewrite transform_list_collect, (Forall2_fmap_Return _ _ _ Hall).
    by rewrite collect_Return.
  - intros ms items' Hall Hdist Hperm.
    rewrite !transform_list_collect.
    pose proof (Forall2_fmap_Return _ _ _ Hall) as Heq.
    assert ((λ item, transform item (VDict d) n) <$> items' ≡ₚ Return <$> ms)
      as Hperm'.
    { rewrite <- Heq. by apply fmap_Permutation. }
    apply fmap_Return_Permutation in Hperm' as (ms' & -> & Hms).
    rewrite Heq, !collect_Return. cbn [bind].
    by rewrite (merge_Permutation ms ms').
  - by destruct n.
Qed.

Lemma transform_list_merges_witness :
  transform (TList [TStr "b"; TStr "a"]) (D [("a", VInt 1); ("b", VInt 2)]) false
  = transform (TList [TStr "a"; TStr "b"]) (D [("a", VInt 1); ("b", VInt 2)]) false.
Proof.
  apply (proj1 (proj2 (proj2
           (transform_list_merges [TStr "a"; TStr "b"]
              (list_to_map [("a", VInt 1); ("b", VInt 2)]) false)))
           [{["a" := VInt 1]}; {["b" := VInt 2]}] [TStr "b"; TStr "a"]).
  - repeat constructor.
  - reflexivity.
  - apply perm_swap.
Defined.

Lemma walk_Return p steps data n km :
  walk p steps data n = Return km → ∃ x, km = {[p := x]}.
Proof.
  revert data. induction steps as [|step steps IH]; intros data; simpl.
  - intros [= <-]. eauto.
  - destruct data as [| | | |d]; try discriminate.
    destruct (d !! step) as [x|]; [apply IH |].
    destruct n; [| discriminate]. intros [= <-]. eauto.
Qed.

(** A path string always produces a single entry, under the whole string. *)
Lemma transform_string_Return p data n km :
  transform (TStr p) data n = Return km → ∃ x, km = {[p := x]}.
Proof.
  simpl. unfold _transform_string.
  destruct (str_contains "." p); [apply walk_Return |].
  destruct (py_in p data) as [present|e]; cbn [bind]; [| discriminate].
  destruct present; cbn [negb].
  - destruct (py_getitem data p) as [x|e]; cbn [bind]; [| discriminate].
    intros [= <-]. eauto.
  - destruct n; [| discriminate]. intros [= <-]. eauto.
Qed.

Lemma getitem_singleton p x : getitem {[p := x]} (TStr p) = Return x.
Proof. unfold getitem. by rewrite lookup_singleton_eq. Qed.

Lemma transform_list_Raise (pre : list spec) (item : spec) (post : list spec)
    (ms : list resultmap) (d : gmap string value) (n : bool) (e : error) :
  Forall2 (λ item m, transform item (VDict d) n = Return m) pre ms →
  transform item (VDict d) n = Raise e →
  transform (TList (pre ++ item :: post)) (VDict d) n = Raise e.
Proof.
  intros Hpre Hitem.
  rewrite transform_list_collect, fmap_app, fmap_cons, Hitem.
  by rewrite (Forall2_fmap_Return _ _ _ Hpre), collect_Raise.
Qed.

Lemma transform_dict_Raise (pre : list (spec * spec)) (entry : spec * spec)
    (post : list (spec * spec)) (ms : list resultmap) (d : gmap string value)
    (n : bool) (e : error) :
  Forall2 (λ entry m, eval_entry (VDict d) n entry = Return m) pre ms →
  eval_entry (VDict d) n entry = Raise e →
  transform (TDict (pre ++ entry :: post)) (VDict d) n = Raise e.
Proof.
  intros Hpre Hentry.
  rewrite transform_dict_collect, fmap_app, fmap_cons, Hentry.
  by rewrite (Forall2_fmap_Return _ _ _ Hpre), collect_Raise.
Qed.

Lemma transform_dict_Return (entries : list (spec * spec)) (ms : list resultmap)
    (d : gmap string value) (n : bool) :
  Forall2 (λ entry m, eval_entry (VDict d) n entry = Return m) entries ms →
  transform (TDict entries) (VDict d) n = Return (merge ms).
Proof.
  intros Hall.
  by rewrite transform_dict_collect, (Forall2_fmap_Return _ _ _ Hall), collect_Return.
Qed.

Lemma transform_list_Return (items : list spec) (ms : list resultmap)
    (d : gmap string value) (n : bool) :
  Forall2 (λ item m, transform item (VDict d) n = Return m) items ms →
  transform (TList items) (VDict d) n = Return (merge ms).
Proof.
  intros Hall.
  by rewrite transform_list_collect, (Forall2_fmap_Return _ _ _ Hall), collect_Return.
Qed.

(** C3. A dictionary specification applied to a dictionary handles its
    entries in declaration order: for each entry the key specification is
    evaluated against the input, the value specification against the value
    found in the intermediate dictionary at the key, and the results are
    merged (the first error ends the call).  For a path key [p] the
    intermediate dictionary is [{p: x}] and the value found is [x].  In
    particular [transform({"a.b": "c"}, {"a": {"b": {"c": 5}}}, False)] is
    [{"c": 5}]. *)
Theorem transform_dict_composes (entries : list (spec * spec))
    (d : gmap string value) (n : bool) :
  transform (TDict entries) (VDict d) n =
    (do ms <- collect (eval_entry (VDict d) n <$> entries);
     Return (merge ms))
  ∧ (∀ ms, Forall2 (λ entry m, eval_entry (VDict d) n entry = Return m) entries ms →
       ∃ r, transform (TDict entries) (VDict d) n = Return r
            ∧ ∀ key, r !! key = last_binding key ms)
  ∧ (∀ p v km, transform (TStr p) (VDict d) n = Return km →
       ∃ x, km = {[p := x]}
            ∧ getitem km (TStr p) = Return x
            ∧ eval_entry (VDict d) n (TStr p, v) = transform v x n)
  ∧ transform (TDict [(TStr "a.b", TStr "c")])
      (D [("a", D [("b", D [("c", VInt 5)])])]) false
    = Return {["c" := VInt 5]}.
Proof.
  split; [apply transform_dict_collect |]. split; [| split].
  - intros ms Hall. exists (merge ms).
    split; [by apply transform_dict_Return | apply merge_lookup].
  - intros p v km Hkm.
    destruct (transform_string_Return _ _ _ _ Hkm) as [x ->].
    exists x. split; [done |]. split; [apply getitem_singleton |].
    unfold eval_entry. cbn [fst snd]. rewrite Hkm. cbn [bind].
    by rewrite getitem_singleton.
  - reflexivity.
Qed.

Lemma transform_dict_composes_witness :
  ∃ r, transform (TDict [(TStr "a", TStr "b"); (TStr "c.d", TStr "e")])
         (D [("a", D [("b", VInt 1)]); ("c", D [("d", D [("e", VInt 2)])])]) false
       = Return r
       ∧ ∀ key, r !! key = last_binding key [{["b" := VInt 1]}; {["e" := VInt 2]}].
Proof.
  apply (proj1 (proj2
           (transform_dict_composes [(TStr "a", TStr "b"); (TStr "c.d", TStr "e")]
              (list_to_map [("a", D [("b", VInt 1)]);
                            ("c", D [("d", D [("e", VInt 2)])])]) false))).
  repeat constructor.
Defined.

Lemma last_binding_at key ms i m x :
  ms !! i = Some m → m !! key = Some x →
  (∀ j m', i < j → ms !! j = Some m' → m' !! key = None) →
  last_binding key ms = Some x.
Proof.
  revert i. induction ms as [|m0 ms IH]; intros i Hi Hm Hlater; [done |].
  simpl. destruct i as [|i]; simpl in Hi.
  - injection Hi as ->.
    assert (last_binding key ms = None) as ->; [| done].
    apply last_binding_None. intros m' Hin.
    apply list_elem_of_lookup_1 in Hin as [j Hj].
    apply (Hlater (S j)); [lia | done].
  - rewrite (IH i); [done | done | done |].
    intros j m' Hlt Hj. apply (Hlater (S j)); [lia | done].
Qed.

Lemma transform_dotted_None q n :
  str_contains "." q = true →
  ∃ step rest, str_split "." q = step :: rest
    ∧ transform (TStr q) VNone n
      = Raise (TransformationTypeMismatch (TStr step) VNone "dict").
Proof.
  intros Hdot. simpl. unfold _transform_string. rewrite Hdot.
  destruct (str_split "." q) as [|step rest] eqn:Hsplit.
  - by destruct (split_from_nonempty "." 0 EmptyString q).
  - by exists step, rest.
Qed.

(** C9, counterexample.  Under nullable mode the key ["a"] of the entry
    [("a", "b.c")] resolves to [{"a": None}] on the empty dictionary, and the
    call on the dictionary specification does not return a dictionary holding
    a [None]: it raises [TransformationTypeMismatch]. *)
Lemma null_key_fails_in_dict :
  transform (TStr "a") (D []) true = Return {["a" := VNone]}
  ∧ transform (TDict [(TStr "a", TStr "b.c")]) (D []) true
    = Raise (TransformationTypeMismatch (TStr "b") VNone "dict").
Proof. split; reflexivity. Qed.

(** C9, amended.  The composite cases hand on what their children produce.
    An error raised by an item of a list specification, or by the key or the
    value specification of an entry of a dictionary specification, once the
    earlier children have returned, is the outcome of the call, unchanged.
    When all children return, a binding of a child's dictionary (a
    [None] produced under nullable mode included) is in the merged result
    unless a later child has the same key.  An entry whose path key resolves
    to [None] under nullable mode has its value specification evaluated
    against [None]: a dotted path or a composite value specification then
    raises [TransformationTypeMismatch]. *)
Theorem composites_propagate_children (d : gmap string value) (n : bool) :
  (∀ pre item post ms e,
     Forall2 (λ item m, transform item (VDict d) n = Return m) pre ms →
     transform item (VDict d) n = Raise e →
     transform (TList (pre ++ item :: post)) (VDict d) n = Raise e)
  ∧ (∀ pre k v post ms e,
       Forall2 (λ entry m, eval_entry (VDict d) n entry = Return m) pre ms →
       transform k (VDict d) n = Raise e
       ∨ (∃ km x, transform k (VDict d) n = Return km
                  ∧ getitem km k = Return x ∧ transform v x n = Raise e) →
       transform (TDict (pre ++ (k, v) :: post)) (VDict d) n = Raise e)
  ∧ (∀ items ms i m key x,
       Forall2 (λ item m, transform item (VDict d) n = Return m) items ms →
       ms !! i = Some m → m !! key = Some x →
       (∀ j m', i < j → ms !! j = Some m' → m' !! key = None) →
       ∃ r, transform (TList items) (VDict d) n = Return r ∧ r !! key = Some x)
  ∧ (∀ entries ms i m key x,
       Forall2 (λ entry m, eval_entry (VDict d) n entry = Return m) entries ms →
       ms !! i = Some m → m !! key = Some x →
       (∀ j m', i < j → ms !! j = Some m' → m' !! key = None) →
       ∃ r, transform (TDict entries) (VDict d) n = Return r ∧ r !! key = Some x)
  ∧ (∀ p v,
       transform (TStr p) (VDict d) true = Return {[p := VNone]} →
       eval_entry (VDict d) true (TStr p, v) = transform v VNone true
       ∧ (∀ entries, v = TDict entries →
            transform v VNone true
            = Raise (TransformationTypeMismatch v VNone "dict"))
       ∧ (∀ items, v = TList items →
            transform v VNone true
            = Raise (TransformationTypeMismatch v VNone "dict"))
       ∧ (∀ q, v = TStr q → str_contains "." q = true →
            ∃ step rest, str_split "." q = step :: rest
              ∧ transform v VNone true
                = Raise (TransformationTypeMismatch (TStr step) VNone "dict"))).
Proof.
  split; [| split; [| split; [| split]]].
  - intros pre item post ms e. apply transform_list_Raise.
  - intros pre k v post ms e Hpre Hentry.
    apply transform_dict_Raise with ms; [done |].
    unfold eval_entry. cbn [fst snd].
    destruct Hentry as [-> | (km & x & -> & Hget & Hv)]; [done |].
    cbn [bind]. rewrite Hget. by cbn [bind].
  - intros items ms i m key x Hall Hi Hm Hlater. exists (merge ms).
    split; [by apply transform_list_Return |].
    rewrite merge_lookup. by apply last_binding_at with i m.
  - intros entries ms i m key x Hall Hi Hm Hlater. exists (merge ms).
    split; [by apply transform_dict_Return |].
    rewrite merge_lookup. by apply last_binding_at with i m.
  - intros p v Hkey. split; [| split; [| split]].
    + unfold eval_entry. cbn [fst snd]. rewrite Hkey. cbn [bind].
      by rewrite getitem_singleton.
    + by intros entries ->.
    + by intros items ->.
    + intros q -> Hdot. by apply transform_dotted_None.
Qed.

Lemma composites_propagate_children_witness :
  transform (TList ([TStr "a"] ++ TStr "b.c" :: [TStr "d"])) (D [("a", VInt 1)]) false
  = Raise (TransformationFieldMissing "b" (D [("a", VInt 1)])).
Proof.
  apply (proj1 (composites_propagate_children
                  (list_to_map [("a", VInt 1)]) false)
           [TStr "a"] (TStr "b.c") [TStr "d"] [{["a" := VInt 1]}]).
  - repeat constructor.
  - reflexivity.
Defined.

(** C10, counterexample.  With the extractor [rename("a", "b")] as the key
    of an entry and an input without ["a"], the call raises
    [TransformationFieldMissing], an exception of the module, and not a
    [KeyError]. *)
Lemma extractor_key_FieldMissing :
  transform (TDict [(TFun (rename "a" "b"), TStr "c")]) (D []) false
  = Raise (TransformationFieldMissing "a" (D []))
  ∧ is_transformation_exception (TransformationFieldMissing "a" (D [])) = true.
Proof. split; reflexivity. Qed.

(** C10, amended.  In a dictionary specification applied to a dictionary,
    once the earlier entries have returned, an entry whose key is an
    extractor raises [KeyError] with the extractor as the missing key
    whenever the extractor returns a dictionary, and raises the extractor's
    own exception when the extractor raises; [KeyError] is not an exception
    of the module.  A path key never fails at the indexing. *)
Theorem extractor_key_KeyError (pre : list (spec * spec)) (f : Extractor)
    (v : spec) (post : list (spec * spec)) (ms : list resultmap)
    (d : gmap string value) (n : bool) :
  Forall2 (λ entry m, eval_entry (VDict d) n entry = Return m) pre ms →
  (∀ km, f (VDict d) = Return km →
     transform (TDict (pre ++ (TFun f, v) :: post)) (VDict d) n
     = Raise (KeyError (TFun f))
     ∧ is_transformation_exception (KeyError (TFun f)) = false)
  ∧ (∀ e, f (VDict d) = Raise e →
       transform (TDict (pre ++ (TFun f, v) :: post)) (VDict d) n = Raise e)
  ∧ (∀ p km, transform (TStr p) (VDict d) n = Return km →
       ∃ x, getitem km (TStr p) = Return x).
Proof.
  intros Hpre. split; [| split].
  - intros km Hf. split; [| done].
    apply transform_dict_Raise with ms; [done |].
    unfold eval_entry. cbn [fst snd transform]. by rewrite Hf.
  - intros e Hf. apply transform_dict_Raise with ms; [done |].
    unfold eval_entry. cbn [fst snd transform]. by rewrite Hf.
  - intros p km Hkm. destruct (transform_string_Return _ _ _ _ Hkm) as [x ->].
    exists x. apply getitem_singleton.
Qed.

Lemma extractor_key_KeyError_witness :
  transform (TDict ([(TStr "x", TStr "y")] ++ (TFun (rename "a" "b"), TStr "c") :: []))
    (D [("a", D [("c", VInt 5)]); ("x", D [("y", VInt 1)])]) false
  = Raise (KeyError (TFun (rename "a" "b"))).
Proof.
  apply (proj1 (extractor_key_KeyError [(TStr "x", TStr "y")] (rename "a" "b")
                  (TStr "c") [] [{["y" := VInt 1]}]
                  (list_to_map [("a", D [("c", VInt 5)]); ("x", D [("y", VInt 1)])])
                  false ltac:(repeat constructor))
           {["b" := D [("c", VInt 5)]]}).
  reflexivity.
Defined.

(** C7, counterexample.  The field ["a"] of [{"a": 5}] resolves to the
    integer 5; [split("a", ",")] then raises [AttributeError] and
    [mask("a", pattern, replace)] raises [TypeError], neither of which is a
    [TransformationTypeMismatch]. *)
Lemma split_mask_integer_untyped :
  transform (TStr "a") (D [("a", VInt 5)]) false = Return {["a" := VInt 5]}
  ∧ split "a" "," (D [("a", VInt 5)]) = Raise AttributeError
  ∧ mask (λ _ _, true) (λ _ _ s, s) "a" "x" "y" (D [("a", VInt 5)]) = Raise TypeError
  ∧ is_transformation_exception (AttributeError : error) = false
  ∧ is_transformation_exception (TypeError : error) = false.
Proof. repeat split; reflexivity. Qed.

(** C7, amended.  When the field [f] resolves against the input to a value
    that is not a string, [split(f, delimiter)] raises the built-in
    [AttributeError] and [mask(f, pattern, replace)] raises the built-in
    [TypeError] (or the [re] module's error when the pattern or the
    replacement does not compile); none of them is an exception of the
    module. *)
Theorem split_mask_non_string (re_valid : string → string → bool)
    (re_sub_str : string → string → string → string)
    (f delimiter pattern replace : string) (data v : value) :
  transform (TStr f) data false = Return {[f := v]} →
  is_str v = false →
  split f delimiter data = Raise AttributeError
  ∧ mask re_valid re_sub_str f pattern replace data
    = Raise (if re_valid pattern replace then TypeError else ReError)
  ∧ (∀ e, mask re_valid re_sub_str f pattern replace data = Raise e
          ∨ split f delimiter data = Raise e →
          is_transformation_exception e = false).
Proof.
  intros Hres Hns.
  assert (split f delimiter data = Raise AttributeError) as Hsplit.
  { unfold split. rewrite Hres. cbn [bind]. rewrite getitem_singleton.
    cbn [bind]. by destruct v. }
  assert (mask re_valid re_sub_str f pattern replace data
          = Raise (if re_valid pattern replace then TypeError else ReError))
    as Hmask.
  { unfold mask. rewrite Hres. cbn [bind]. rewrite getitem_singleton.
    cbn [bind]. unfold re_sub.
    destruct (re_valid pattern replace); [| done]. by destruct v. }
  split; [done |]. split; [done |].
  intros e [He | He].
  - rewrite Hmask in He. injection He as <-.
    by destruct (re_valid pattern replace).
  - rewrite Hsplit in He. by injection He as <-.
Qed.

Lemma split_mask_non_string_witness :
  split "a" "," (D [("a", VList [VStr "x"])]) = Raise AttributeError
  ∧ mask (λ _ _, true) (λ _ _ s, s) "a" "x" "y" (D [("a", VList [VStr "x"])])
    = Raise TypeError.
Proof.
  destruct (split_mask_non_string (λ _ _, true) (λ _ _ s, s) "a" "," "x" "y"
              (D [("a", VList [VStr "x"])]) (VList [VStr "x"])
              eq_refl eq_refl) as (Hs & Hm & _).
  split; [exact Hs | exact Hm].
Defined.

(** ** Further properties of path resolution *)

Lemma walk_Return_false p steps data m :
  walk p steps data false = Return m →
  ∃ v, follow steps data = Some v ∧ m = {[p := v]}.
Proof.
  revert data. induction steps as [|step steps IH]; intros data; simpl.
  - intros [= <-]. eauto.
  - destruct data as [| | | |d]; try discriminate.
    destruct (d !! step) as [x|]; [apply IH | discriminate].
Qed.

Lemma walk_mismatch p pre step post data x n :
  follow pre data = Some x → is_dict x = false →
  walk p (pre ++ step :: post) data n
  = Raise (TransformationTypeMismatch (TStr step) x "dict").
Proof.
  revert data. induction pre as [|s pre IH]; intros data Hfol Hnd; simpl in *.
  - injection Hfol as ->. by destruct x.
  - destruct data as [| | | |d]; try discriminate.
    destruct (d !! s) as [y|]; [by apply IH | discriminate].
Qed.

Lemma undotted_non_dict_no_Return p data m :
  str_contains "." p = false → is_dict data = false →
  _transform_string p data false ≠ Return m.
Proof.
  intros Hdot Hnd. unfold _transform_string. rewrite Hdot.
  destruct data as [| |s|l|d]; try discriminate.
  - unfold py_in, py_getitem. cbn [bind].
    by destruct (str_contains p s).
  - unfold py_in, py_getitem. cbn [bind].
    by destruct (existsb _ l).
Qed.

Lemma path_success_iff p data m :
  transform (TStr p) data false = Return m ↔
  ∃ v, follow (str_split "." p) data = Some v ∧ m = {[p := v]}.
Proof.
  split.
  - cbn [transform]. intros Hret.
    destruct (is_dict data) eqn:Hd.
    + destruct data; try discriminate.
      rewrite transform_string_dict_walk in Hret.
      by apply walk_Return_false.
    + destruct (str_contains "." p) eqn:Hdot.
      * unfold _transform_string in Hret. rewrite Hdot in Hret.
        by apply walk_Return_false.
      * by destruct (undotted_non_dict_no_Return p data m Hdot Hd).
  - intros (v & Hfol & ->).
    destruct (follow_nonempty_dict _ _ _ (split_from_nonempty _ _ _ _) Hfol)
      as [d ->].
    cbn [transform]. rewrite transform_string_dict_walk. by apply walk_follow.
Qed.

(** X1. Without nullable mode a path string returns exactly when every one
    of its segments resolves, from left to right, through dictionaries; the
    result is then the single entry of the whole path and the value
    reached. *)
Theorem path_returns_iff_resolves (p : string) (data : value) (m : resultmap) :
  transform (TStr p) data false = Return m ↔
  ∃ v, follow (str_split "." p) data = Some v ∧ m = {[p := v]}.
Proof. apply path_success_iff. Qed.

(** X2. In a dotted path, a segment reached on a value that is not a
    dictionary raises [TransformationTypeMismatch] with that segment and that
    value, whatever the nullable flag; this includes the first segment on an
    input that is not a dictionary. *)
Theorem dotted_path_type_mismatch (p : string) (data x : value)
    (pre : list string) (step : string) (post : list string) (n : bool) :
  str_contains "." p = true →
  str_split "." p = pre ++ step :: post →
  follow pre data = Some x →
  is_dict x = false →
  transform (TStr p) data n
  = Raise (TransformationTypeMismatch (TStr step) x "dict").
Proof.
  intros Hdot Hsplit Hfol Hnd. cbn [transform]. unfold _transform_string.
  rewrite Hdot, Hsplit. by apply walk_mismatch.
Qed.

Lemma dotted_path_type_mismatch_witness :
  transform (TStr "a.b.c") (D [("a", D [("b", VInt 7)])]) true
  = Raise (TransformationTypeMismatch (TStr "c") (VInt 7) "dict").
Proof.
  apply (dotted_path_type_mismatch "a.b.c" (D [("a", D [("b", VInt 7)])])
           (VInt 7) ["a"; "b"] "c" [] true); reflexivity.
Defined.

(** ** Dotted paths and nested specifications *)

Lemma prefix_dot (c : ascii) (s : string) :
  String.prefix "." (String c s) = if ascii_dec "." c then true else false.
Proof.
  cbn [String.prefix]. destruct (ascii_dec "." c); [by destruct s | done].
Qed.

Lemma split_from_dot_app (cur p q : string) :
  split_from "." 0 cur (p +:+ "." +:+ q)
  = split_from "." 0 cur p ++ split_from "." 0 EmptyString q.
Proof.
  revert cur. induction p as [|c p IH]; intros cur.
  - change (EmptyString +:+ "." +:+ q) with (String "." q).
    rewrite split_from_step, prefix_dot.
    destruct (ascii_dec "." "."); [done | congruence].
  - rewrite append_cons, !split_from_step, !prefix_dot.
    destruct (ascii_dec "." c).
    + cbn [String.length Nat.sub]. rewrite IH. done.
    + apply IH.
Qed.

Lemma str_split_dot_app (p q : string) :
  str_split "." (p +:+ "." +:+ q) = str_split "." p ++ str_split "." q.
Proof. apply split_from_dot_app. Qed.

Lemma follow_app (pre post : list string) (data : value) :
  follow (pre ++ post) data =
    match follow pre data with
    | Some x => follow post x
    | None => None
    end.
Proof.
  revert data. induction pre as [|s pre IH]; intros data; simpl; [done |].
  destruct data as [| | | |d]; try done.
  destruct (d !! s); [apply IH | done].
Qed.

Lemma Return_inj {E A} (a b : A) : (Return a : outcome E A) = Return b → a = b.
Proof. by intros [= ->]. Qed.

Lemma singleton_value_inj (key : string) (x y : value) :
  ({[key := x]} : resultmap) = {[key := y]} → x = y.
Proof.
  intros Heq. assert (({[key := x]} : resultmap) !! key = Some y) as Hl.
  { rewrite Heq. apply lookup_singleton_eq. }
  rewrite lookup_singleton_eq in Hl. congruence.
Qed.

Lemma focus_entry_success (p q : string) (data : value) (d : gmap string value)
    (v : value) :
  data = VDict d →
  transform (TDict [(TStr p, TStr q)]) data false = Return {[q := v]} ↔
  follow (str_split "." p ++ str_split "." q) data = Some v.
Proof.
  intros ->. rewrite follow_app.
  cbn [transform _transform_dict dict_loop].
  split.
  - destruct (_transform_string p (VDict d) false) as [km|e] eqn:Hp;
      cbn [bind]; [| discriminate].
    apply (path_success_iff p (VDict d) km) in Hp as (x & Hx & ->).
    rewrite Hx, getitem_singleton. cbn [bind].
    destruct (_transform_string q x false) as [r|e] eqn:Hq;
      cbn [bind]; [| discriminate].
    apply (path_success_iff q x r) in Hq as (y & Hy & ->).
    unfold update. rewrite (right_id_L ∅ (∪)).
    intros Heq%Return_inj%singleton_value_inj. congruence.
  - destruct (follow (str_split "." p) (VDict d)) as [x|] eqn:Hx; [| discriminate].
    intros Hy.
    assert (transform (TStr p) (VDict d) false = Return {[p := x]}) as Hp.
    { apply path_success_iff. eauto. }
    assert (transform (TStr q) x false = Return {[q := v]}) as Hq.
    { apply path_success_iff. eauto. }
    cbn [transform] in Hp, Hq. rewrite Hp. cbn [bind].
    rewrite getitem_singleton. cbn [bind]. rewrite Hq. cbn [bind].
    unfold update. by rewrite (right_id_L ∅ (∪)).
Qed.

(** X3. On a dictionary and without nullable mode, the one-entry dictionary
    specification [{p: q}] returns the value [v] under the key [q] exactly
    when the dotted path [p.q] returns [v] under the key [p.q]: nesting a
    path under a path key reads the same place as joining the two with a
    dot. *)
Theorem nested_path_same_as_dotted (p q : string) (d : gmap string value)
    (v : value) :
  transform (TDict [(TStr p, TStr q)]) (VDict d) false = Return {[q := v]} ↔
  transform (TStr (p +:+ "." +:+ q)) (VDict d) false
  = Return {[p +:+ "." +:+ q := v]}.
Proof.
  rewrite (focus_entry_success p q (VDict d) d v eq_refl).
  rewrite path_success_iff, str_split_dot_app. split.
  - eauto.
  - intros (y & Hy & Heq%singleton_value_inj). congruence.
Qed.

(** ** Properties of the whole evaluator, by induction on the specification *)

Lemma collect_Return_inv {A} (f : A → result) (xs : list A) (ms : list resultmap) :
  collect (f <$> xs) = Return ms → Forall2 (λ x m, f x = Return m) xs ms.
Proof.
  revert ms. induction xs as [|x xs IH]; intros ms.
  - intros [= <-]%Return_inj. constructor.
  - rewrite fmap_cons. cbn [collect].
    destruct (f x) as [m|e] eqn:Hx; cbn [bind]; [| discriminate].
    destruct (collect (f <$> xs)) as [ms'|e] eqn:Hxs; cbn [bind]; [| discriminate].
    intros <-%Return_inj. constructor; [done | by apply IH].
Qed.

Lemma collect_Raise_inv {A} (f : A → result) (xs : list A) (e : error) :
  collect (f <$> xs) = Raise e → ∃ x, x ∈ xs ∧ f x = Raise e.
Proof.
  induction xs as [|x xs IH]; [discriminate |].
  rewrite fmap_cons. cbn [collect].
  destruct (f x) as [m|e'] eqn:Hx; cbn [bind].
  - destruct (collect (f <$> xs)) as [ms'|e'] eqn:Hxs; cbn [bind]; [discriminate |].
    intros Heq. destruct IH as (y & Hin & Hy).
    { by rewrite <- Heq. }
    exists y. split; [by right | done].
  - intros Heq. exists x. split; [by left | congruence].
Qed.

Lemma Forall2_Forall_impl {A B} (P : A → Prop) (R R' : A → B → Prop)
    (xs : list A) (ys : list B) :
  Forall P xs → Forall2 R xs ys → (∀ x y, P x → R x y → R' x y) →
  Forall2 R' xs ys.
Proof.
  intros HP HR Himp. induction HR as [|x y xs ys Hxy _ IH]; [constructor |].
  apply Forall_cons in HP as [Hx Hxs]. constructor; [by apply Himp | by apply IH].
Qed.

Lemma walk_nullable_keeps p steps data m :
  walk p steps data false = Return m → walk p steps data true = Return m.
Proof.
  revert data. induction steps as [|step steps IH]; intros data; simpl; [done |].
  destruct data as [| | | |d]; try done.
  destruct (d !! step); [apply IH | discriminate].
Qed.

Lemma transform_string_nullable_keeps p data m :
  _transform_string p data false = Return m →
  _transform_string p data true = Return m.
Proof.
  unfold _transform_string.
  destruct (str_contains "." p); [apply walk_nullable_keeps |].
  destruct (py_in p data) as [present|e]; cbn [bind]; [| done].
  by destruct present.
Qed.

Lemma transform_nullable_keeps (t : spec) :
  ∀ data m, transform t data false = Return m → transform t data true = Return m.
Proof.
  induction t as [entries IH|items IH|p|f|o] using spec_induction;
    intros data m Hret.
  - destruct data as [| | | |d]; try discriminate.
    rewrite transform_dict_collect in Hret.
    destruct (collect (eval_entry (VDict d) false <$> entries)) as [ms|e] eqn:Hcol;
      cbn [bind] in Hret; [| discriminate].
    apply Return_inj in Hret as <-.
    apply transform_dict_Return.
    apply collect_Return_inv in Hcol.
    apply (Forall2_Forall_impl _ _ _ _ _ IH Hcol).
    intros [k v] r [Hk Hv]. unfold eval_entry. cbn [fst snd] in *.
    destruct (transform k (VDict d) false) as [km|e] eqn:Hkm; cbn [bind]; [| done].
    rewrite (Hk _ _ Hkm). cbn [bind].
    destruct (getitem km k) as [x|e]; cbn [bind]; [| done].
    apply Hv.
  - destruct data as [| | | |d]; try discriminate.
    rewrite transform_list_collect in Hret.
    destruct (collect ((λ item, transform item (VDict d) false) <$> items))
      as [ms|e] eqn:Hcol; cbn [bind] in Hret; [| discriminate].
    apply Return_inj in Hret as <-.
    apply transform_list_Return.
    apply collect_Return_inv in Hcol.
    apply (Forall2_Forall_impl _ _ _ _ _ IH Hcol).
    intros item r Hitem. apply Hitem.
  - by apply transform_string_nullable_keeps.
  - done.
  - done.
Qed.

(** X4. Nullable mode never changes a result: whatever a call returns with
    [nullable=False], the same call with [nullable=True] returns too, for
    every specification (callables included) and every input. *)
Theorem nullable_keeps_results (t : spec) (data : value) (m : resultmap) :
  transform t data false = Return m → transform t data true = Return m.
Proof. apply transform_nullable_keeps. Qed.

Lemma nullable_keeps_results_witness :
  transform (TDict [(TStr "a", TList [TStr "b"; TStr "c.d"])])
    (D [("a", D [("b", VInt 1); ("c", D [("d", VInt 2)])])]) true
  = Return {["b" := VInt 1; "c.d" := VInt 2]}.
Proof.
  apply (nullable_keeps_results
           (TDict [(TStr "a", TList [TStr "b"; TStr "c.d"])])
           (D [("a", D [("b", VInt 1); ("c", D [("d", VInt 2)])])])).
  reflexivity.
Defined.

Lemma walk_nullable_no_missing p steps data loc x :
  walk p steps data true ≠ Raise (TransformationFieldMissing loc x).
Proof.
  revert data. induction steps as [|step steps IH]; intros data; simpl; [done |].
  destruct data as [| | | |d]; try done.
  destruct (d !! step); [apply IH | done].
Qed.

Lemma transform_string_nullable_no_missing p data loc x :
  _transform_string p data true ≠ Raise (TransformationFieldMissing loc x).
Proof.
  unfold _transform_string.
  destruct (str_contains "." p); [apply walk_nullable_no_missing |].
  destruct (py_in p data) as [present|e] eqn:Hin; cbn [bind].
  - destruct present; cbn [negb]; [| done].
    destruct data as [| | | |d]; try done.
    unfold py_getitem. by destruct (d !! p).
  - destruct data; simpl in Hin; try discriminate; by injection Hin as <-.
Qed.

Lemma getitem_no_missing (km : resultmap) (k : spec) loc x :
  getitem km k ≠ Raise (TransformationFieldMissing loc x).
Proof. destruct k as [| |s| |]; try done. simpl. by destruct (km !! s). Qed.

Lemma extractor_free_entries entries :
  extractor_free (TDict entries) = true →
  ∀ k v, (k, v) ∈ entries → extractor_free k = true ∧ extractor_free v = true.
Proof.
  cbn [extractor_free]. rewrite forallb_forall. intros Hall k v Hin.
  apply list_elem_of_In, Hall in Hin. by apply andb_true_iff in Hin.
Qed.

Lemma extractor_free_items items :
  extractor_free (TList items) = true →
  ∀ item, item ∈ items → extractor_free item = true.
Proof.
  cbn [extractor_free]. rewrite forallb_forall. intros Hall item Hin.
  by apply list_elem_of_In, Hall in Hin.
Qed.

Lemma transform_nullable_no_missing (t : spec) :
  extractor_free t = true →
  ∀ data loc x, transform t data true ≠ Raise (TransformationFieldMissing loc x).
Proof.
  induction t as [entries IH|items IH|p|f|o] using spec_induction;
    intros Hfree data loc x Hraise.
  - destruct data as [| | | |d]; try discriminate.
    rewrite transform_dict_collect in Hraise.
    destruct (collect (eval_entry (VDict d) true <$> entries)) as [ms|e] eqn:Hcol;
      cbn [bind] in Hraise; [discriminate |].
    injection Hraise as ->.
    apply collect_Raise_inv in Hcol as ([k v] & Hin & Hentry).
    destruct (extractor_free_entries _ Hfree k v Hin) as [Hfk Hfv].
    rewrite Forall_forall in IH. destruct (IH _ Hin) as [Hk Hv].
    cbn [fst snd] in Hk, Hv. unfold eval_entry in Hentry. cbn [fst snd] in Hentry.
    destruct (transform k (VDict d) true) as [km|e] eqn:Hkm; cbn [bind] in Hentry.
    + destruct (getitem km k) as [y|e] eqn:Hget; cbn [bind] in Hentry.
      * by apply (Hv Hfv y loc x).
      * injection Hentry as ->. by apply (getitem_no_missing km k loc x).
    + injection Hentry as ->. by apply (Hk Hfk (VDict d) loc x).
  - destruct data as [| | | |d]; try discriminate.
    rewrite transform_list_collect in Hraise.
    destruct (collect ((λ item, transform item (VDict d) true) <$> items))
      as [ms|e] eqn:Hcol; cbn [bind] in Hraise; [discriminate |].
    injection Hraise as ->.
    apply collect_Raise_inv in Hcol as (item & Hin & Hitem).
    rewrite Forall_forall in IH.
    by apply (IH _ Hin (extractor_free_items _ Hfree _ Hin) (VDict d) loc x).
  - by apply (transform_string_nullable_no_missing p data loc x).
  - discriminate.
  - discriminate.
Qed.

(** X5. Under nullable mode a specification that contains no callable never
    raises [TransformationFieldMissing], on any input: every missing field
    becomes a [None] (or the call fails for another reason). *)
Theorem nullable_never_missing (t : spec) (data : value) (loc : string)
    (x : value) :
  extractor_free t = true →
  transform t data true ≠ Raise (TransformationFieldMissing loc x).
Proof. intros Hfree. by apply transform_nullable_no_missing. Qed.

Lemma nullable_never_missing_witness :
  transform (TList [TStr "a.b"; TStr "c"]) (D [("a", D [])]) true
  ≠ Raise (TransformationFieldMissing "b" (D [])).
Proof.
  apply (nullable_never_missing (TList [TStr "a.b"; TStr "c"])
           (D [("a", D [])]) "b" (D [])).
  reflexivity.
Defined.

Lemma dom_foldl_update (ms : list resultmap) (acc : resultmap) :
  dom (foldl update acc ms) = dom acc ∪ ⋃ (dom <$> ms).
Proof.
  revert acc. induction ms as [|m ms IH]; intros acc.
  - cbn. by rewrite (right_id_L ∅ (∪)).
  - rewrite fmap_cons. cbn [foldl union_list foldr]. rewrite IH.
    unfold update. rewrite dom_union_L, (comm_L (∪) (dom m)).
    by rewrite (assoc_L (∪)).
Qed.

Lemma dom_merge (ms : list resultmap) : dom (merge ms) = ⋃ (dom <$> ms).
Proof.
  unfold merge. rewrite dom_foldl_update, dom_empty_L.
  by rewrite (left_id_L ∅ (∪)).
Qed.

Lemma eval_entry_Return_inv data n k v m :
  eval_entry data n (k, v) = Return m → ∃ x, transform v x n = Return m.
Proof.
  unfold eval_entry. cbn [fst snd].
  destruct (transform k data n) as [km|e]; cbn [bind]; [| discriminate].
  destruct (getitem km k) as [x|e]; cbn [bind]; [| discriminate]. eauto.
Qed.

Lemma transform_output_keys (t : spec) :
  extractor_free t = true →
  ∀ data n m, transform t data n = Return m → dom m = output_keys t.
Proof.
  induction t as [entries IH|items IH|p|f|o] using spec_induction;
    intros Hfree data n m Hret.
  - destruct data as [| | | |d]; try discriminate.
    rewrite transform_dict_collect in Hret.
    destruct (collect (eval_entry (VDict d) n <$> entries)) as [ms|e] eqn:Hcol;
      cbn [bind] in Hret; [| discriminate].
    apply Return_inj in Hret as <-. rewrite dom_merge. cbn [output_keys].
    f_equal. apply collect_Return_inv in Hcol.
    pose proof (extractor_free_entries _ Hfree) as Hfrees. clear Hfree.
    induction Hcol as [|[k v] r entries ms Hentry _ IHcol]; [done |].
    apply Forall_cons in IH as [[_ Hv] IH]. rewrite !fmap_cons. f_equal.
    + apply eval_entry_Return_inv in Hentry as [x Hx]. cbn [snd] in *.
      apply (Hv (proj2 (Hfrees k v ltac:(by left))) x n r Hx).
    + apply IHcol; [done |]. intros k' v' Hin. apply Hfrees. by right.
  - destruct data as [| | | |d]; try discriminate.
    rewrite transform_list_collect in Hret.
    destruct (collect ((λ item, transform item (VDict d) n) <$> items))
      as [ms|e] eqn:Hcol; cbn [bind] in Hret; [| discriminate].
    apply Return_inj in Hret as <-. rewrite dom_merge. cbn [output_keys].
    f_equal. apply collect_Return_inv in Hcol.
    pose proof (extractor_free_items _ Hfree) as Hfrees. clear Hfree.
    induction Hcol as [|item r items ms Hitem _ IHcol]; [done |].
    apply Forall_cons in IH as [Hi IH]. rewrite !fmap_cons. f_equal.
    + apply (Hi (Hfrees item ltac:(by left)) (VDict d) n r Hitem).
    + apply IHcol; [done |]. intros item' Hin. apply Hfrees. by right.
  - destruct (transform_string_Return _ _ _ _ Hret) as [x ->].
    cbn [output_keys]. apply dom_singleton_L.
  - discriminate.
  - discriminate.
Qed.

(** X6. The keys of a result depend on the specification alone: when a
    specification without callables returns, on whatever input and with
    whatever flag, the keys of the returned dictionary are exactly the path
    strings that stand as list items or as values of dictionary entries
    (the path keys of dictionary entries are not among them). *)
Theorem result_keys_from_spec (t : spec) (data : value) (n : bool)
    (m : resultmap) :
  extractor_free t = true →
  transform t data n = Return m →
  dom m = output_keys t.
Proof. intros Hfree. by apply transform_output_keys. Qed.

Lemma result_keys_from_spec_witness :
  dom ({["b" := VInt 1; "c.d" := VNone]} : resultmap)
  = output_keys (TDict [(TStr "a", TList [TStr "b"; TStr "c.d"])]).
Proof.
  apply (result_keys_from_spec
           (TDict [(TStr "a", TList [TStr "b"; TStr "c.d"])])
           (D [("a", D [("b", VInt 1)])]) true); reflexivity.
Defined.

(** ** Algebra of list specifications *)

Lemma collect_app (rs1 rs2 : list result) :
  collect (rs1 ++ rs2) =
    do ms1 <- collect rs1;
    do ms2 <- collect rs2;
    Return (ms1 ++ ms2).
Proof.
  induction rs1 as [|r rs1 IH].
  - cbn [app collect bind]. by destruct (collect rs2).
  - rewrite <- app_comm_cons. cbn [collect].
    destruct r as [m|e]; cbn [bind]; [| done].
    rewrite IH. destruct (collect rs1) as [ms1|e]; cbn [bind]; [| done].
    by destruct (collect rs2).
Qed.

Lemma last_binding_app key (ms1 ms2 : list resultmap) :
  last_binding key (ms1 ++ ms2) =
    match last_binding key ms2 with
    | Some x => Some x
    | None => last_binding key ms1
    end.
Proof.
  induction ms1 as [|m ms1 IH]; simpl.
  - by destruct (last_binding key ms2).
  - rewrite IH. by destruct (last_binding key ms2).
Qed.

Lemma merge_flatten (ms1 ms ms2 : list resultmap) :
  merge (ms1 ++ merge ms :: ms2) = merge (ms1 ++ ms ++ ms2).
Proof.
  apply map_eq. intros key. rewrite !merge_lookup, !last_binding_app.
  cbn [last_binding]. rewrite merge_lookup.
  by destruct (last_binding key ms2), (last_binding key ms).
Qed.

Lemma merge_twice (ms : list resultmap) : merge (ms ++ ms) = merge ms.
Proof.
  apply map_eq. intros key. rewrite !merge_lookup, last_binding_app.
  by destruct (last_binding key ms).
Qed.

(** X7. On a dictionary, a list specification nested as an item of a list
    specification can be spliced into it: the outcome (the result or the
    first error) is the same. *)
Theorem nested_list_flattens (pre items post : list spec)
    (d : gmap string value) (n : bool) :
  transform (TList (pre ++ TList items :: post)) (VDict d) n
  = transform (TList (pre ++ items ++ post)) (VDict d) n.
Proof.
  rewrite !transform_list_collect, !fmap_app, fmap_cons, !collect_app.
  destruct (collect ((λ item, transform item (VDict d) n) <$> pre)) as [ms1|e];
    cbn [bind]; [| done].
  cbn [collect]. rewrite transform_list_collect.
  destruct (collect ((λ item, transform item (VDict d) n) <$> items)) as [ms|e];
    cbn [bind]; [| done].
  destruct (collect ((λ item, transform item (VDict d) n) <$> post)) as [ms2|e];
    cbn [bind]; [| done].
  by rewrite merge_flatten.
Qed.

(** X8. On a dictionary, writing the items of a list specification twice
    gives the same outcome as writing them once. *)
Theorem repeated_items_idempotent (items : list spec) (d : gmap string value)
    (n : bool) :
  transform (TList (items ++ items)) (VDict d) n
  = transform (TList items) (VDict d) n.
Proof.
  rewrite !transform_list_collect, fmap_app, collect_app.
  destruct (collect ((λ item, transform item (VDict d) n) <$> items)) as [ms|e];
    cbn [bind]; [| done].
  by rewrite merge_twice.
Qed.

(** ** The built-in extractors on a field that resolves, and on one that is
    missing *)

Lemma resolved_field (f : string) (data v : value) :
  follow (str_split "." f) data = Some v →
  transform (TStr f) data false = Return {[f := v]}.
Proof. intros Hfol. apply path_success_iff. eauto. Qed.

Lemma rename_success_iff (old new : string) (data : value) (m : resultmap) :
  rename old new data = Return m ↔
  ∃ v, follow (str_split "." old) data = Some v ∧ m = {[new := v]}.
Proof.
  unfold rename. split.
  - destruct (transform (TStr old) data false) as [km|e] eqn:Hold;
      cbn [bind]; [| discriminate].
    apply path_success_iff in Hold as (v & Hfol & ->).
    rewrite getitem_singleton. cbn [bind]. intros <-%Return_inj. eauto.
  - intros (v & Hfol & ->). rewrite (resolved_field _ _ _ Hfol). cbn [bind].
    by rewrite getitem_singleton.
Qed.

(** X9. [rename(old, new)] returns exactly when the path [old] resolves in
    the input, and then gives the value reached under the single key [new];
    called through [transform], it does so whatever the nullable flag of the
    call. *)
Theorem rename_returns_iff_resolves (old new : string) (data : value)
    (n : bool) (m : resultmap) :
  transform (TFun (rename old new)) data n = Return m ↔
  ∃ v, follow (str_split "." old) data = Some v ∧ m = {[new := v]}.
Proof. cbn [transform]. apply rename_success_iff. Qed.

(** X10. On an input that lacks the field (the segments before [step] lead
    to a dictionary [d] without [step]), [rename], [split] and [mask] raise
    [TransformationFieldMissing] with [step] and [d], and they do so even
    when they are called through [transform] with [nullable=True]: the flag
    of the call does not reach an extractor. *)
Theorem extractors_missing_field (re_valid : string → string → bool)
    (re_sub_str : string → string → string → string)
    (f new delimiter pattern replace : string) (data : value)
    (pre : list string) (step : string) (post : list string)
    (d : gmap string value) :
  str_split "." f = pre ++ step :: post →
  follow pre data = Some (VDict d) →
  d !! step = None →
  transform (TFun (rename f new)) data true
    = Raise (TransformationFieldMissing step (VDict d))
  ∧ transform (TFun (split f delimiter)) data true
    = Raise (TransformationFieldMissing step (VDict d))
  ∧ transform (TFun (mask re_valid re_sub_str f pattern replace)) data true
    = Raise (TransformationFieldMissing step (VDict d)).
Proof.
  intros Hsplit Hfol Habs.
  destruct (transform_path_missing_gen f data pre step post d Hsplit Hfol Habs)
    as [Hmiss _].
  cbn [transform]. unfold rename, split, mask. rewrite Hmiss. by cbn [bind].
Qed.

Lemma extractors_missing_field_witness :
  transform (TFun (rename "a.b" "c")) (D [("a", D [])]) true
    = Raise (TransformationFieldMissing "b" (D []))
  ∧ transform (TFun (split "a.b" ",")) (D [("a", D [])]) true
    = Raise (TransformationFieldMissing "b" (D []))
  ∧ transform (TFun (mask (λ _ _, true) (λ _ _ s, s) "a.b" "x" "y"))
      (D [("a", D [])]) true
    = Raise (TransformationFieldMissing "b" (D [])).
Proof.
  apply (extractors_missing_field (λ _ _, true) (λ _ _ s, s)
           "a.b" "c" "," "x" "y" (D [("a", D [])]) ["a"] "b" [] ∅);
    reflexivity.
Defined.

(** ** [split]: the pieces joined by the delimiter give the text back *)

Lemma str_join_cons (sep part : string) (parts : list string) :
  parts ≠ [] →
  str_join sep (part :: parts) = part +:+ sep +:+ str_join sep parts.
Proof. by destruct parts. Qed.

Lemma prefix_length (sep s : string) :
  String.prefix sep s = true → String.length sep ≤ String.length s.
Proof.
  revert sep. induction s as [|c s IH]; intros [|a sep]; cbn [String.prefix String.length];
    try done; try lia.
  destruct (ascii_dec a c); [| done]. intros Hpre%IH. lia.
Qed.

Lemma prefix_drop (sep s : string) :
  String.prefix sep s = true → s = sep +:+ str_drop (String.length sep) s.
Proof.
  revert sep. induction s as [|c s IH]; intros [|a sep]; cbn [String.prefix];
    try done.
  destruct (ascii_dec a c) as [-> |]; [| done]. intros Hpre.
  rewrite append_cons. cbn [String.length str_drop]. f_equal. by apply IH.
Qed.

Lemma split_from_join (sep : string) :
  sep ≠ EmptyString →
  ∀ s skip cur, skip ≤ String.length s →
    str_join sep (split_from sep skip cur s) = cur +:+ str_drop skip s.
Proof.
  intros Hsep. induction s as [|c s IH]; intros skip cur Hskip.
  - cbn [String.length] in Hskip. assert (skip = 0) as -> by lia.
    cbn [split_from str_join str_drop]. symmetry. apply append_empty_r.
  - destruct skip as [|k].
    + rewrite split_from_step. cbn [str_drop].
      destruct (String.prefix sep (String c s)) eqn:Hpre.
      * destruct sep as [|a sep']; [done |].
        pose proof Hpre as Hpre'. cbn [String.prefix] in Hpre'.
        destruct (ascii_dec a c) as [-> |]; [| done].
        rewrite str_join_cons by apply split_from_nonempty.
        cbn [String.length]. rewrite Nat.sub_succ, Nat.sub_0_r.
        rewrite IH by by apply prefix_length.
        change (EmptyString +:+ str_drop (String.length sep') s)
          with (str_drop (String.length sep') s).
        by rewrite append_cons, <- (prefix_drop sep' s Hpre').
      * rewrite IH by lia. cbn [str_drop]. apply append_snoc.
    + cbn [split_from str_drop]. apply IH. cbn [String.length] in Hskip. lia.
Qed.

Lemma str_split_join (sep s : string) :
  sep ≠ EmptyString → str_join sep (str_split sep s) = s.
Proof.
  intros Hsep. unfold str_split.
  rewrite (split_from_join sep Hsep s 0 EmptyString) by lia. done.
Qed.

(** X11. When the field [f] resolves to a string [s] and the delimiter is
    not empty, [split(f, delimiter)] returns the single entry [f] holding a
    list of strings which, joined by the delimiter, give [s] back; a string
    without the delimiter gives the one-element list [[s]]. *)
Theorem split_round_trip (f delimiter s : string) (data : value) :
  follow (str_split "." f) data = Some (VStr s) →
  delimiter ≠ EmptyString →
  ∃ parts,
    split f delimiter data = Return {[f := VList (VStr <$> parts)]}
    ∧ str_join delimiter parts = s
    ∧ (str_contains delimiter s = false → parts = [s]).
Proof.
  intros Hfol Hsep. exists (str_split delimiter s). split; [| split].
  - unfold split. rewrite (resolved_field _ _ _ Hfol). cbn [bind].
    rewrite getitem_singleton. cbn [bind py_split].
    by destruct delimiter.
  - by apply str_split_join.
  - apply str_split_absent.
Qed.

Lemma split_round_trip_witness :
  ∃ parts,
    split "a.b" ", " (D [("a", D [("b", VStr "x, y,z, ")])])
    = Return {["a.b" := VList (VStr <$> parts)]}
    ∧ str_join ", " parts = "x, y,z, "
    ∧ (str_contains ", " "x, y,z, " = false → parts = ["x, y,z, "]).
Proof.
  apply (split_round_trip "a.b" ", " "x, y,z, "
           (D [("a", D [("b", VStr "x, y,z, ")])])).
  - reflexivity.
  - discriminate.
Defined.

(** X12. When the field [f] resolves to a string [s], [mask(f, pattern,
    replace)] returns the single entry [f] holding the substituted string if
    the pattern and the replacement compile, and raises the [re] module's
    error otherwise; no other key of the input appears in the result. *)
Theorem mask_on_string (re_valid : string → string → bool)
    (re_sub_str : string → string → string → string)
    (f pattern replace s : string) (data : value) :
  follow (str_split "." f) data = Some (VStr s) →
  mask re_valid re_sub_str f pattern replace data
  = if re_valid pattern replace
    then Return {[f := VStr (re_sub_str pattern replace s)]}
    else Raise ReError.
Proof.
  intros Hfol. unfold mask. rewrite (resolved_field _ _ _ Hfol). cbn [bind].
  rewrite getitem_singleton. cbn [bind]. unfold re_sub.
  by destruct (re_valid pattern replace).
Qed.

Lemma mask_on_string_witness :
  mask (λ _ _, true) (λ _ replace _, replace) "a" "x" "#"
    (D [("a", VStr "xxx"); ("b", VInt 1)])
  = Return {["a" := VStr "#"]}.
Proof.
  apply (mask_on_string (λ _ _, true) (λ _ replace _, replace) "a" "x" "#" "xxx"
           (D [("a", VStr "xxx"); ("b", VInt 1)])).
  reflexivity.
Defined.

(** ** Specifications of no recognised shape *)

(** X13. A specification that is neither a dictionary, a list, a string nor
    a callable raises [TransformationMalformed] carrying it.  Inside a
    composite specification applied to a dictionary, once the earlier
    children have returned, this is the outcome of the whole call: as a list
    item, as the key of an entry (before any indexing) and as the value of an
    entry whose path key resolves. *)
Theorem malformed_spec_reported (o : other) (d : gmap string value) (n : bool)
    (pre_items : list spec) (pre_entries : list (spec * spec))
    (ms_items ms_entries : list resultmap) :
  Forall2 (λ item m, transform item (VDict d) n = Return m) pre_items ms_items →
  Forall2 (λ entry m, eval_entry (VDict d) n entry = Return m)
    pre_entries ms_entries →
  (∀ post, transform (TList (pre_items ++ TOther o :: post)) (VDict d) n
           = Raise (TransformationMalformed (TOther o)))
  ∧ (∀ v post, transform (TDict (pre_entries ++ (TOther o, v) :: post)) (VDict d) n
               = Raise (TransformationMalformed (TOther o)))
  ∧ (∀ p x post, follow (str_split "." p) (VDict d) = Some x →
       transform (TDict (pre_entries ++ (TStr p, TOther o) :: post)) (VDict d) n
       = Raise (TransformationMalformed (TOther o))).
Proof.
  intros Hitems Hentries. split; [| split].
  - intros post. by apply transform_list_Raise with ms_items.
  - intros v post. by apply transform_dict_Raise with ms_entries.
  - intros p x post Hfol. apply transform_dict_Raise with ms_entries; [done |].
    unfold eval_entry. cbn [fst snd].
    assert (transform (TStr p) (VDict d) n = Return {[p := x]}) as ->.
    { cbn [transform]. rewrite transform_string_dict_walk. by apply walk_follow. }
    cbn [bind]. by rewrite getitem_singleton.
Qed.

Lemma malformed_spec_reported_witness :
  transform (TDict ([(TStr "a", TStr "b")] ++ (TStr "a", TOther (OInt 3)) :: []))
    (D [("a", D [("b", VInt 1)])]) false
  = Raise (TransformationMalformed (TOther (OInt 3))).
Proof.
  apply (proj2 (proj2
           (malformed_spec_reported (OInt 3) (list_to_map [("a", D [("b", VInt 1)])])
              false [] [(TStr "a", TStr "b")] [] [{["b" := VInt 1]}]
              ltac:(constructor) ltac:(repeat constructor)))
           "a" (D [("b", VInt 1)]) []).
  reflexivity.
Defined.

(** ** More on composite specifications *)

(** X14. [nullable(t, True)] around any specification [t]: called through
    [transform] under either flag, it returns whatever [t] returns without
    nullable mode, and if [t] contains no callable it never raises
    [TransformationFieldMissing]. *)
Theorem nullable_wrapper_tolerates_missing (t : spec) (data : value)
    (ambient : bool) :
  (∀ m, transform t data false = Return m →
        transform (TFun (nullable t true)) data ambient = Return m)
  ∧ (extractor_free t = true →
     ∀ loc x, transform (TFun (nullable t true)) data ambient
              ≠ Raise (TransformationFieldMissing loc x)).
Proof.
  split.
  - intros m Hret. cbn [transform]. unfold nullable.
    by apply transform_nullable_keeps.
  - intros Hfree loc x. cbn [transform]. unfold nullable.
    by apply transform_nullable_no_missing.
Qed.

Lemma nullable_wrapper_tolerates_missing_witness :
  transform (TFun (nullable (TList [TStr "a"; TStr "b.c"]) true))
    (D [("a", VInt 1); ("b", D [("c", VInt 2)])]) false
  = Return {["a" := VInt 1; "b.c" := VInt 2]}.
Proof.
  apply (proj1 (nullable_wrapper_tolerates_missing
                  (TList [TStr "a"; TStr "b.c"])
                  (D [("a", VInt 1); ("b", D [("c", VInt 2)])]) false)).
  reflexivity.
Defined.

(** X15. In a dictionary specification applied to a dictionary, once the
    earlier entries have returned, an entry whose path key resolves to a
    value that is not a dictionary and whose value specification is itself a
    dictionary or a list specification raises [TransformationTypeMismatch]
    with that value specification and that value, whatever the flag. *)
Theorem composite_value_needs_dict (pre : list (spec * spec)) (p : string)
    (post : list (spec * spec)) (ms : list resultmap) (d : gmap string value)
    (x : value) (n : bool) :
  Forall2 (λ entry m, eval_entry (VDict d) n entry = Return m) pre ms →
  follow (str_split "." p) (VDict d) = Some x →
  is_dict x = false →
  (∀ entries,
     transform (TDict (pre ++ (TStr p, TDict entries) :: post)) (VDict d) n
     = Raise (TransformationTypeMismatch (TDict entries) x "dict"))
  ∧ (∀ items,
       transform (TDict (pre ++ (TStr p, TList items) :: post)) (VDict d) n
       = Raise (TransformationTypeMismatch (TList items) x "dict")).
Proof.
  intros Hpre Hfol Hnd.
  assert (transform (TStr p) (VDict d) n = Return {[p := x]}) as Hkey.
  { cbn [transform]. rewrite transform_string_dict_walk. by apply walk_follow. }
  split; intros children; (apply transform_dict_Raise with ms; [done |]);
    unfold eval_entry; cbn [fst snd]; rewrite Hkey; cbn [bind];
    rewrite getitem_singleton; cbn [bind]; by destruct x.
Qed.

Lemma composite_value_needs_dict_witness :
  transform (TDict ([] ++ (TStr "a", TList [TStr "b"]) :: []))
    (D [("a", VStr "text")]) true
  = Raise (TransformationTypeMismatch (TList [TStr "b"]) (VStr "text") "dict").
Proof.
  apply (proj2 (composite_value_needs_dict [] "a" [] []
                  (list_to_map [("a", VStr "text")]) (VStr "text") true
                  ltac:(constructor) eq_refl eq_refl)).
Defined.

(** X16. When the entries of a dictionary specification all return on a
    dictionary and their results have no key in common, any reordering of
    the entries returns the same result. *)
Theorem dict_entries_order_independent (entries entries' : list (spec * spec))
    (ms : list resultmap) (d : gmap string value) (n : bool) :
  Forall2 (λ entry m, eval_entry (VDict d) n entry = Return m) entries ms →
  distinct_keys ms = true →
  entries' ≡ₚ entries →
  transform (TDict entries') (VDict d) n = transform (TDict entries) (VDict d) n.
Proof.
  intros Hall Hdist Hperm. rewrite !transform_dict_collect.
  pose proof (Forall2_fmap_Return _ _ _ Hall) as Heq.
  assert (eval_entry (VDict d) n <$> entries' ≡ₚ Return <$> ms) as Hperm'.
  { rewrite <- Heq. by apply fmap_Permutation. }
  apply fmap_Return_Permutation in Hperm' as (ms' & -> & Hms).
  rewrite Heq, !collect_Return. cbn [bind].
  by rewrite (merge_Permutation ms ms').
Qed.

Lemma dict_entries_order_independent_witness :
  transform (TDict [(TStr "c", TStr "d"); (TStr "a", TStr "b")])
    (D [("a", D [("b", VInt 1)]); ("c", D [("d", VInt 2)])]) false
  = transform (TDict [(TStr "a", TStr "b"); (TStr "c", TStr "d")])
      (D [("a", D [("b", VInt 1)]); ("c", D [("d", VInt 2)])]) false.
Proof.
  apply (dict_entries_order_independent
           [(TStr "a", TStr "b"); (TStr "c", TStr "d")]
           [(TStr "c", TStr "d"); (TStr "a", TStr "b")]
           [{["b" := VInt 1]}; {["d" := VInt 2]}]
           (list_to_map [("a", D [("b", VInt 1)]); ("c", D [("d", VInt 2)])])
           false).
  - repeat constructor.
  - reflexivity.
  - apply perm_swap.
Defined.
